(** * PythagoreanCache: a cache that dumps when full or at an interval

    A shallow embedding of [src/index.ts] (class [PythagoreanCache<T>]) and
    the properties of its buffering and triggering behaviour.

    Conventions of the embedding:
    - a JavaScript [number] of the configuration is an integer ([Z]); an
      optional field ([size?: number]) is an [option Z], [None] standing for
      [undefined];
    - the methods of the class are computations in a state-and-exception
      monad [M] over [State], the fields of the instance together with the
      part of the host (Node's timers and event emitter) they act on;
    - a listener registered for the ['dump'] event is a callback that sees
      the batch it is handed and the queue of the cache at that moment, and
      either returns or throws; it does not call back into the cache; every
      call made to a listener is recorded in the [trace] of the state. *)

From Stdlib Require Import ZArith String.
From stdpp Require Import base option list gmap strings.

Module Opts.

(** [interface PythagoreanCacheOpts { size?: number; interval?: number }] *)
Record PythagoreanCacheOpts : Type := mk {
  size : option Z;      (* dump cache when queue reaches this size *)
  interval : option Z   (* dump cache every X milliseconds *)
}.

End Opts.

Module PythagoreanCache.

Import Opts(PythagoreanCacheOpts).

(** ** JavaScript values *)

(** [ToBoolean] on a number: every number but [0] is truthy. *)
Definition truthy (n : Z) : bool := negb (n =? 0)%Z.

(** [ToBoolean] on an optional number: [undefined] is falsy. *)
Definition ToBoolean (v : option Z) : bool :=
  match v with
  | Some n => truthy n
  | None => false
  end.

(** [a || b] where [a] is an optional number and [b] a number. *)
Definition or_else (a : option Z) (b : Z) : Z :=
  match a with
  | Some n => if truthy n then n else b
  | None => b
  end.

(** The outcome of a call: a value, or an exception carrying its message. *)
Inductive Outcome (A : Type) : Type :=
  | Return (a : A)
  | Throw (msg : string).
Arguments Return {A} a.
Arguments Throw {A} msg.

Definition config_error : string :=
  "You must specify either a size or interval (or both)".

(** The call did not return. *)
Definition fails {A : Type} (r : Outcome A) : Prop :=
  exists msg, r = Throw msg.

Section Cache.

Context {T : Type}.

(** A listener of the ['dump'] event: registered with [on] ([once = false])
    or [once] ([once = true]); [handler items seen] is what the callback
    does when it is called with the batch [items] while the queue of the
    cache holds [seen]: [None] when it returns, [Some msg] when it throws. *)
Record Listener : Type := {
  once : bool;
  handler : list T -> list T -> option string
}.

(** What the cache does to the outside: [Emit items] is the call
    [this.emit('dump', items)], [Call items seen] one call of a listener
    with [items], made while the queue was [seen]. *)
Inductive Event : Type :=
  | Emit (items : list T)
  | Call (items seen : list T).

Record State : Type := {
  (* fields of the instance *)
  queue : list T;                  (* private queue: T[] = [] *)
  interval : option nat;           (* private interval: NodeJS.Timeout *)
  opts : PythagoreanCacheOpts;     (* private opts *)
  (* the EventEmitter it extends: listeners of 'dump', oldest first *)
  listeners : list Listener;
  (* host: the recurring timers that are armed, with their delay *)
  timers : gmap nat Z;
  next_timer : nat;
  (* every notification so far, oldest first *)
  trace : list Event
}.

Definition set_queue (q : list T) (s : State) : State :=
  {| queue := q; interval := interval s; opts := opts s;
     listeners := listeners s; timers := timers s;
     next_timer := next_timer s; trace := trace s |}.

Definition set_interval (h : option nat) (s : State) : State :=
  {| queue := queue s; interval := h; opts := opts s;
     listeners := listeners s; timers := timers s;
     next_timer := next_timer s; trace := trace s |}.

Definition set_opts (o : PythagoreanCacheOpts) (s : State) : State :=
  {| queue := queue s; interval := interval s; opts := o;
     listeners := listeners s; timers := timers s;
     next_timer := next_timer s; trace := trace s |}.

Definition set_listeners (ls : list Listener) (s : State) : State :=
  {| queue := queue s; interval := interval s; opts := opts s;
     listeners := ls; timers := timers s;
     next_timer := next_timer s; trace := trace s |}.

Definition set_timers (tm : gmap nat Z) (n : nat) (s : State) : State :=
  {| queue := queue s; interval := interval s; opts := opts s;
     listeners := listeners s; timers := tm;
     next_timer := n; trace := trace s |}.

Definition log (evs : list Event) (s : State) : State :=
  {| queue := queue s; interval := interval s; opts := opts s;
     listeners := listeners s; timers := timers s;
     next_timer := next_timer s; trace := trace s ++ evs |}.

(** [this.opts.size = v] and [this.opts.interval = v] *)
Definition set_size (v : option Z) (s : State) : State :=
  set_opts (Opts.mk v (Opts.interval (opts s))) s.

Definition set_opts_interval (v : option Z) (s : State) : State :=
  set_opts (Opts.mk (Opts.size (opts s)) v) s.

(** ** The monad of methods *)

Definition M (A : Type) : Type := State -> Outcome A * State.

#[global] Instance M_ret : MRet M := fun A a s => (Return a, s).

#[global] Instance M_bind : MBind M := fun A B k m s =>
  match m s with
  | (Return a, s') => k a s'
  | (Throw e, s') => (Throw e, s')
  end.

Definition throw {A : Type} (msg : string) : M A := fun s => (Throw msg, s).
Definition gets {A : Type} (f : State -> A) : M A := fun s => (Return (f s), s).
Definition modify (f : State -> State) : M unit := fun s => (Return tt, f s).

(** ** Host operations *)

(** [Array.prototype.push]: appends, returns the new length. *)
Definition array_push (items : list T) : M Z :=
  q ← gets queue;
  modify (set_queue (q ++ items));;
  mret (Z.of_nat (List.length (q ++ items))).

(** [this.queue.splice(0, deleteCount)]: the delete count is clamped to
    [0 .. queue.length]; that many elements leave the front of the array
    and are returned. *)
Definition splice_width (deleteCount : Z) (len : nat) : nat :=
  Z.to_nat (Z.min (Z.max deleteCount 0) (Z.of_nat len)).

Definition splice0 (deleteCount : Z) : M (list T) :=
  q ← gets queue;
  let k := splice_width deleteCount (List.length q) in
  modify (set_queue (drop k q));;
  mret (take k q).

(** [EventEmitter.prototype.emit]: the listeners are called in the order
    they were registered, each with the same arguments; a [once] listener
    is removed before it is called; an exception of a listener leaves
    [emit] at once, the listeners after it are not called. The result is
    the listeners that stay registered, the calls made, and the exception
    if there was one. *)
Fixpoint call_listeners (ls : list Listener) (items seen : list T)
  : list Listener * list Event * option string :=
  match ls with
  | [] => ([], [], None)
  | l :: rest =>
      let keep := if once l then [] else [l] in
      match handler l items seen with
      | Some e => (keep ++ rest, [Call items seen], Some e)
      | None =>
          let '(rest', evs, r) := call_listeners rest items seen in
          (keep ++ rest', Call items seen :: evs, r)
      end
  end.

(** [this.emit('dump', items)]; returns whether there were listeners. *)
Definition emit (items : list T) : M bool :=
  ls ← gets listeners;
  seen ← gets queue;
  let '(ls', evs, r) := call_listeners ls items seen in
  modify (fun s => log (Emit items :: evs) (set_listeners ls' s));;
  match r with
  | Some e => throw e
  | None => mret (match ls with [] => false | _ => true end)
  end.

(** [this.on('dump', f)] and [this.once('dump', f)] *)
Definition on (f : list T -> list T -> option string) : M unit :=
  modify (fun s => set_listeners (listeners s ++ [Build_Listener false f]) s).

Definition once_ (f : list T -> list T -> option string) : M unit :=
  modify (fun s => set_listeners (listeners s ++ [Build_Listener true f]) s).

(** [setInterval(callback, ms)] of the host: arms a new recurring timer and
    returns its handle. [clearInterval(h)]: disarms [h]; nothing happens
    when [h] is not armed. *)
Definition host_setInterval (ms : Z) : M nat :=
  tm ← gets timers;
  h ← gets next_timer;
  modify (set_timers (<[h := ms]> tm) (S h));;
  mret h.

Definition host_clearInterval (h : nat) : M unit :=
  modify (fun s => set_timers (delete h (timers s)) (next_timer s) s).

(** ** The class *)

(** [get length()] *)
Definition length : M Z :=
  gets (fun s => Z.of_nat (List.length (queue s))).

(** [checkLimit()]:
    [this.opts.size ? this.length >= this.opts.size : false] *)
Definition checkLimit : M bool :=
  o ← gets opts;
  match Opts.size o with
  | Some n =>
      if truthy n then len ← length; mret (n <=? len)%Z else mret false
  | None => mret false
  end.

(** [dump()]:
    [if (this.length > 0) {
       const items = this.queue.splice(0, this.opts.size || this.length);
       this.emit('dump', items); }] *)
Definition dump : M unit :=
  len ← length;
  if (0 <? len)%Z then
    o ← gets opts;
    len' ← length;
    items ← splice0 (or_else (Opts.size o) len');
    emit items;;
    mret tt
  else mret tt.

(** [push(...items)]:
    [this.queue.push(...items);
     if (this.checkLimit()) { this.dump(); }
     return this.length;] *)
Definition push (items : list T) : M Z :=
  array_push items;;
  full ← checkLimit;
  (if full : bool then dump else mret tt);;
  length.

(** [setSize(newSize)] *)
Definition setSize (newSize : Z) : M unit :=
  modify (set_size (Some newSize));;
  full ← checkLimit;
  if full : bool then dump else mret tt.

(** [stopInterval()]:
    [if (this.interval) { clearInterval(this.interval); }]
    The field keeps the handle afterwards. *)
Definition stopInterval : M unit :=
  h ← gets interval;
  match h with
  | Some t => host_clearInterval t
  | None => mret tt
  end.

(** [startInterval()]:
    [this.stopInterval();
     if (this.opts.interval) {
       this.interval = setInterval(() => { this.dump(); }, this.opts.interval); }] *)
Definition startInterval : M unit :=
  stopInterval;;
  o ← gets opts;
  match Opts.interval o with
  | Some ms =>
      if truthy ms then
        h ← host_setInterval ms;
        modify (set_interval (Some h))
      else mret tt
  | None => mret tt
  end.

(** [setInterval(newInterval)] *)
Definition setInterval (newInterval : Z) : M unit :=
  modify (set_opts_interval (Some newInterval));;
  startInterval.

(** The callback given to the host's [setInterval], run when timer [h]
    fires: [() => { this.dump(); }]. A timer that is not armed never
    fires. *)
Definition timer_fires (h : nat) : M unit :=
  tm ← gets timers;
  match (tm : gmap nat Z) !! h with
  | Some _ => dump
  | None => mret tt
  end.

(** The fields of an instance before the body of the constructor runs. *)
Definition fresh (o : PythagoreanCacheOpts) : State :=
  {| queue := []; interval := None; opts := o; listeners := [];
     timers := ∅; next_timer := 0; trace := [] |}.

(** [constructor(private opts)]:
    [if (!opts.size && !opts.interval) { throw new Error(...); }
     this.startInterval();] *)
Definition constructor (o : PythagoreanCacheOpts) : M unit :=
  if negb (ToBoolean (Opts.size o)) && negb (ToBoolean (Opts.interval o))
  then throw config_error
  else startInterval.

(** [new PythagoreanCache(o)]: the instance, or the exception; a
    constructor that throws yields no instance. *)
Definition new (o : PythagoreanCacheOpts) : Outcome State :=
  match constructor o (fresh o) with
  | (Return _, s) => Return s
  | (Throw e, _) => Throw e
  end.

(** [items.forEach((item) => cq.push(item))]: the items pushed one at a
    time; an exception leaves the loop. *)
Fixpoint push_each (items : list T) : M unit :=
  match items with
  | [] => mret tt
  | x :: rest => push [x];; push_each rest
  end.

(** ** Notions the properties are stated with *)

(** The batches of the ['dump'] notifications of a trace, oldest first. *)
Definition emitted (tr : list Event) : list (list T) :=
  omap (fun ev => match ev with Emit items => Some items | Call _ _ => None end) tr.

(** The size limit that is in force: [opts.size] when it holds a number
    other than [0], the values [this.opts.size ? _ : _] and
    [this.opts.size || _] take for a limit. *)
Definition size_limit (o : PythagoreanCacheOpts) : option Z :=
  match Opts.size o with
  | Some n => if truthy n then Some n else None
  | None => None
  end.

(** The value of the test of [checkLimit] for a queue of [len] items. *)
Definition limit_reached (o : PythagoreanCacheOpts) (len : nat) : bool :=
  match Opts.size o with
  | Some n => truthy n && (n <=? Z.of_nat len)%Z
  | None => false
  end.

(** The number of items of a batch as the specification words it:
    [min(sizeLimit, queue length)] under a size limit, the whole queue
    without one. *)
Definition batch_width (limit : option Z) (len : nat) : nat :=
  match limit with
  | Some n => Z.to_nat (Z.min n (Z.of_nat len))
  | None => len
  end.

(** A listener that returns whatever it is called with. *)
Definition quiet (l : Listener) : Prop :=
  forall items seen, handler l items seen = None.

(** The call [setSize(newSize)] made one ['dump'] notification fire, with a
    batch of at most [newSize] items. *)
Definition setSize_dumps (newSize : Z) (s : State) : Prop :=
  exists batch,
    emitted (trace (setSize newSize s).2) = emitted (trace s) ++ [batch]
    /\ (Z.of_nat (List.length batch) <= newSize)%Z.

End Cache.

Arguments State T : clear implicits.
Arguments Listener T : clear implicits.
Arguments Event T : clear implicits.

(** ** Instances the properties are tried on *)

(** A listener that does nothing, as [() => {}]. *)
Definition returns : list nat -> list nat -> option string :=
  fun _ _ => None.

(** The cache [new PythagoreanCache<number>(o)]. *)
Definition instance (o : PythagoreanCacheOpts) : State nat :=
  match new o with
  | Return s => s
  | Throw _ => fresh o
  end.

(** The state a computation leaves. *)
Definition after {A : Type} (m : M (T:=nat) A) (s : State nat) : State nat :=
  (m s).2.

(** [new PythagoreanCache<number>({ size: 10 })] *)
Definition cache10 : State nat := instance (Opts.mk (Some 10%Z) None).

(** [new PythagoreanCache<number>({ interval: 10 })] *)
Definition ticking : State nat := instance (Opts.mk None (Some 10%Z)).

(** ** Programs that use a cache *)

Section Client.

Context {T : Type}.

(** One step of a program that holds a cache: a call of one of its public
    methods, or the host running the callback of the timer [h] (which it
    does only for a timer that is armed). *)
Inductive Op : Type :=
  | Push (items : list T)
  | Dump
  | SetSize (newSize : Z)
  | SetInterval (newInterval : Z)
  | StartInterval
  | StopInterval
  | TimerFires (h : nat)
  | On (f : list T -> list T -> option string)
  | Once (f : list T -> list T -> option string).

Definition run_op (op : Op) : M (T:=T) unit :=
  match op with
  | Push items => push items;; mret tt
  | Dump => dump
  | SetSize newSize => setSize newSize
  | SetInterval newInterval => setInterval newInterval
  | StartInterval => startInterval
  | StopInterval => stopInterval
  | TimerFires h => timer_fires h
  | On f => on f
  | Once f => once_ f
  end.

(** The steps run one after the other. An exception that leaves a step
    (thrown by a listener) is caught by the program, which goes on with the
    next step, in the state the step left. *)
Fixpoint run_ops (ops : list Op) (s : State T) : State T :=
  match ops with
  | [] => s
  | op :: rest => run_ops rest (run_op op s).2
  end.

(** The items a program pushes, in the order it pushes them. *)
Fixpoint pushed (ops : list Op) : list T :=
  match ops with
  | [] => []
  | Push items :: rest => items ++ pushed rest
  | _ :: rest => pushed rest
  end.

(** Everything that went through the cache: the batches it notified, one
    after the other, then what it still holds. *)
Definition flow (s : State T) : list T :=
  concat (emitted (trace s)) ++ queue s.

(** The only timer that can be armed is the one whose handle the instance
    holds. *)
Definition one_timer (s : State T) : Prop :=
  forall h, is_Some (timers s !! h) -> interval s = Some h.

End Client.

Arguments Op T : clear implicits.

(** * Properties *)

Section Properties.

Context {T : Type}.
Implicit Types (s : State T) (q items seen : list T) (ls : list (Listener T)).

(** ** Equations of the methods *)

Lemma size_limit_Some o n :
  size_limit o = Some n ↔ Opts.size o = Some n ∧ n ≠ 0%Z.
Proof.
  unfold size_limit, truthy. destruct (Opts.size o) as [m|].
  - destruct (Z.eqb_spec m 0) as [->|Hm]; simpl; split.
    + discriminate.
    + intros [[= <-] Hn]. by destruct Hn.
    + by intros [= <-].
    + by intros [[= <-] _].
  - split; [discriminate|]. by intros [? _].
Qed.

Lemma size_limit_None o :
  size_limit o = None ↔ Opts.size o = None ∨ Opts.size o = Some 0%Z.
Proof.
  unfold size_limit, truthy. destruct (Opts.size o) as [m|].
  - destruct (Z.eqb_spec m 0) as [->|Hm]; simpl; split.
    + by right.
    + done.
    + discriminate.
    + intros [[=]|[= ->]]. by destruct Hm.
  - split; [by left|done].
Qed.

(** The width [splice] takes in [dump] is the width of the specification. *)
Lemma dump_width_spec o len :
  splice_width (or_else (Opts.size o) (Z.of_nat len)) len
  = batch_width (size_limit o) len.
Proof.
  unfold splice_width, or_else, batch_width, size_limit.
  destruct (Opts.size o) as [n|]; [destruct (truthy n)|]; lia.
Qed.

Lemma batch_width_le limit len : batch_width limit len ≤ len.
Proof. unfold batch_width. destruct limit; lia. Qed.

Lemma checkLimit_run s :
  checkLimit s = (Return (limit_reached (opts s) (List.length (queue s))), s).
Proof.
  unfold checkLimit, limit_reached, mbind, M_bind, gets; simpl.
  destruct (Opts.size (opts s)) as [n|]; [|done].
  by destruct (truthy n).
Qed.

Lemma call_listeners_calls ls items seen :
  Forall (λ ev, ev = Call items seen) (call_listeners ls items seen).1.2.
Proof.
  induction ls as [|l ls IH]; simpl; [constructor|].
  destruct (handler l items seen); simpl.
  - repeat constructor.
  - destruct (call_listeners ls items seen) as [[ls' evs] r]; simpl in *.
    by constructor.
Qed.

Lemma call_listeners_quiet ls items seen :
  Forall (λ l, handler l items seen = None) ls →
  call_listeners ls items seen =
    (filter (λ l, once l = false) ls,
     replicate (List.length ls) (Call items seen), None).
Proof.
  induction 1 as [|l ls Hl _ IH]; simpl; [done|].
  rewrite Hl, IH. destruct l as [[] h]; simpl.
  - rewrite filter_cons_False; [done|]. simpl. congruence.
  - by rewrite filter_cons_True.
Qed.

Lemma emitted_calls (evs : list (Event T)) items seen :
  Forall (λ ev, ev = Call items seen) evs → emitted evs = [].
Proof. induction 1 as [|ev evs -> _ IH]; [done|]. simpl. exact IH. Qed.

Lemma dump_empty_run s : queue s = [] → dump s = (Return tt, s).
Proof.
  intros H. unfold dump, mbind, M_bind, length, gets. simpl. by rewrite H.
Qed.

(** What [dump] does to a queue that holds something, in one equation. *)
Lemma dump_nonempty_run s :
  queue s ≠ [] →
  let k := batch_width (size_limit (opts s)) (List.length (queue s)) in
  let items := take k (queue s) in
  let rest := drop k (queue s) in
  let res := call_listeners (listeners s) items rest in
  dump s =
    (match res.2 with Some e => Throw e | None => Return tt end,
     log (Emit items :: res.1.2) (set_listeners res.1.1 (set_queue rest s))).
Proof.
  intros H. simpl. rewrite <- dump_width_spec.
  unfold dump, mbind, M_bind, length, gets. simpl.
  destruct (queue s) as [|x q] eqn:Hq; [done|].
  replace (0 <? Z.of_nat (List.length (x :: q)))%Z with true
    by (symmetry; apply Z.ltb_lt; simpl; lia).
  unfold splice0, emit, mbind, M_bind, gets, modify. simpl. rewrite Hq.
  set (k := splice_width _ _).
  by destruct (call_listeners (listeners s) (take k (x :: q)) (drop k (x :: q)))
    as [[ls' evs] [e|]].
Qed.

Lemma push_run s items :
  let s1 := set_queue (queue s ++ items) s in
  push items s =
    if limit_reached (opts s) (List.length (queue s ++ items)) then
      match dump s1 with
      | (Return _, s2) => (Return (Z.of_nat (List.length (queue s2))), s2)
      | (Throw e, s2) => (Throw e, s2)
      end
    else (Return (Z.of_nat (List.length (queue s ++ items))), s1).
Proof.
  simpl. unfold push, array_push, mbind, M_bind, gets, modify. simpl.
  rewrite checkLimit_run. simpl.
  destruct (limit_reached _ _); [|done].
  by destruct (dump _) as [[[]|e] s2].
Qed.

Lemma setSize_run s newSize :
  let s1 := set_size (Some newSize) s in
  setSize newSize s =
    if limit_reached (opts s1) (List.length (queue s)) then dump s1
    else (Return tt, s1).
Proof.
  simpl. unfold setSize, mbind, M_bind, modify. simpl.
  rewrite checkLimit_run. simpl. by destruct (limit_reached _ _).
Qed.


Lemma emitted_app (a b : list (Event T)) : emitted (a ++ b) = emitted a ++ emitted b.
Proof. apply omap_app. Qed.

Lemma quiet_at ls items seen :
  Forall quiet ls → Forall (λ l, handler l items seen = None) ls.
Proof. intros H. eapply Forall_impl; [exact H|]. intros l Hl. apply Hl. Qed.

(** The shape of the state and of the outcome after a dump of a queue that
    holds something: the facts the properties below are drawn from. *)
Lemma dump_nonempty_facts s :
  queue s ≠ [] →
  let k := batch_width (size_limit (opts s)) (List.length (queue s)) in
  let batch := take k (queue s) in
  let rest := drop k (queue s) in
  queue (dump s).2 = rest ∧
  opts (dump s).2 = opts s ∧
  ∃ calls,
    trace (dump s).2 = trace s ++ Emit batch :: calls ∧
    Forall (λ ev, ev = Call batch rest) calls ∧
    (Forall quiet (listeners s) →
       (dump s).1 = Return tt ∧
       calls = replicate (List.length (listeners s)) (Call batch rest)).
Proof.
  intros Hq k batch rest. rewrite (dump_nonempty_run s Hq). simpl.
  fold k. fold batch. fold rest.
  split; [done|]. split; [done|].
  exists (call_listeners (listeners s) batch rest).1.2.
  split; [done|]. split; [apply call_listeners_calls|].
  intros Hquiet.
  by rewrite (call_listeners_quiet _ _ _ (quiet_at _ batch rest Hquiet)).
Qed.

(** Under a positive size the width is the smaller of the size and the
    length of the queue. *)
Lemma batch_width_limit o n len :
  Opts.size o = Some n → (0 < n)%Z →
  batch_width (size_limit o) len = Nat.min (Z.to_nat n) len.
Proof.
  intros Hn Hpos. unfold batch_width, size_limit, truthy. rewrite Hn.
  replace (n =? 0)%Z with false by (symmetry; apply Z.eqb_neq; lia).
  simpl. lia.
Qed.

(** ** The properties *)

(** C3. Calling [dump] when the queue is empty is a no-op: the call returns,
    and the state after it is the state before it; in particular no
    listener is called, no notification (and so no empty batch) is added to
    the trace, and queue, options and timers are what they were. *)
Theorem dump_empty_noop s : queue s = [] → dump s = (Return tt, s).
Proof. apply dump_empty_run. Qed.

(** C2. For every non-empty queue, one call of [dump] takes from the front
    of the queue exactly [min(sizeLimit, queue length)] items when a size
    limit is in force ([opts.size] a number other than [0]; a positive
    one, as the sizes of the specification are), the whole queue when none
    is ([batch_width]); the notification and every call of a listener carry exactly that batch, in
    the order of insertion; what lies beyond the batch stays queued in its
    order; when no listener throws, every registered listener is called
    and [dump] returns. *)
Theorem dump_extracts_batch s :
  queue s ≠ [] →
  let k := batch_width (size_limit (opts s)) (List.length (queue s)) in
  let batch := take k (queue s) in
  let rest := drop k (queue s) in
  (∀ n, Opts.size (opts s) = Some n → (0 < n)%Z →
        k = Nat.min (Z.to_nat n) (List.length (queue s))) ∧
  (Opts.size (opts s) = None → k = List.length (queue s)) ∧
  List.length batch = k ∧
  queue s = batch ++ rest ∧
  queue (dump s).2 = rest ∧
  emitted (trace (dump s).2) = emitted (trace s) ++ [batch] ∧
  ∃ calls,
    trace (dump s).2 = trace s ++ Emit batch :: calls ∧
    Forall (λ ev, ev = Call batch rest) calls ∧
    (Forall quiet (listeners s) →
       (dump s).1 = Return tt ∧
       calls = replicate (List.length (listeners s)) (Call batch rest)).
Proof.
  intros Hq k batch rest.
  destruct (dump_nonempty_facts s Hq) as (Hrest & _ & calls & Htr & Hcalls & Hquiet).
  fold k batch rest in Hrest, Htr, Hcalls, Hquiet.
  split; [|split; [|split; [|split; [|split; [|split]]]]].
  - intros n Hn Hpos. unfold k. by rewrite (batch_width_limit _ n).
  - intros Hn. unfold k, size_limit. by rewrite Hn.
  - apply length_take_le, batch_width_le.
  - symmetry. apply take_drop.
  - done.
  - rewrite Htr, emitted_app. simpl.
    by rewrite (emitted_calls _ _ _ Hcalls).
  - by exists calls.
Qed.

(** C7. [checkLimit] returns [true] if and only if a size limit is in force
    ([opts.size] holds a number other than [0]) and the queue holds at
    least that many items; it returns [false] whenever no size limit is in
    force ([opts.size] is absent, or [0]); it always returns, and leaves
    the state as it found it. *)
Theorem checkLimit_spec s :
  ∃ b : bool,
    checkLimit s = (Return b, s) ∧
    (b = true ↔
       ∃ n, size_limit (opts s) = Some n ∧
            (n ≤ Z.of_nat (List.length (queue s)))%Z) ∧
    (b = true ↔
       ∃ n, Opts.size (opts s) = Some n ∧ n ≠ 0%Z ∧
            (n ≤ Z.of_nat (List.length (queue s)))%Z) ∧
    (Opts.size (opts s) = None ∨ Opts.size (opts s) = Some 0%Z → b = false).
Proof.
  exists (limit_reached (opts s) (List.length (queue s))).
  split; [apply checkLimit_run|].
  assert (Hiff : limit_reached (opts s) (List.length (queue s)) = true ↔
            ∃ n, size_limit (opts s) = Some n ∧
                 (n ≤ Z.of_nat (List.length (queue s)))%Z).
  { unfold limit_reached, size_limit.
    destruct (Opts.size (opts s)) as [n|]; [destruct (truthy n)|]; simpl.
    - split.
      + intros H. exists n. split; [done|]. by apply Z.leb_le.
      + intros (m & [= <-] & H). by apply Z.leb_le.
    - split; [discriminate|]. by intros (m & [=] & _).
    - split; [discriminate|]. by intros (m & [=] & _). }
  split; [exact Hiff|]. split.
  - rewrite Hiff. split.
    + intros (n & Hn & Hle). apply size_limit_Some in Hn as [Hn Hnz].
      by exists n.
    + intros (n & Hn & Hnz & Hle). exists n. split; [|done].
      by apply size_limit_Some.
  - intros Hno. apply size_limit_None in Hno.
    apply not_true_is_false. intros Hb.
    apply Hiff in Hb as (n & Hn & _). congruence.
Qed.

(** C8. In every dump the batch has left the queue before a listener runs:
    the queue before the dump is the batch followed by the queue after it,
    every listener that is called is called with that batch and sees the
    queue as it is after the dump, and this holds whether the dump returns
    or a listener throws. *)
Theorem dump_extracts_before_notifying s :
  ∃ batch evs,
    trace (dump s).2 = trace s ++ evs ∧
    queue s = batch ++ queue (dump s).2 ∧
    Forall (λ ev, ev = Emit batch ∨ ev = Call batch (queue (dump s).2)) evs ∧
    ((dump s).1 = Return tt ∨ ∃ e, (dump s).1 = Throw e ∧ evs ≠ []).
Proof.
  destruct (decide (queue s = [])) as [Hq|Hq].
  - exists [], []. rewrite (dump_empty_run s Hq). simpl.
    rewrite app_nil_r. split; [done|]. split; [done|].
    split; [constructor|by left].
  - destruct (dump_nonempty_facts s Hq) as (Hrest & _ & calls & Htr & Hcalls & _).
    eexists _, _. split; [exact Htr|]. rewrite Hrest.
    split; [symmetry; apply take_drop|]. split.
    + constructor; [by left|].
      eapply Forall_impl; [exact Hcalls|]. intros ev ->. by right.
    + destruct (dump s).1 as [[]|e]; [by left|right]. by exists e.
Qed.

(** C5. For every call of [push], with any number of items, the value
    returned is the length of the queue after the items were appended and
    after the dump the call itself triggered, if it did: the state after
    the call is the one the dump left, or the one with the items appended
    when the limit was not reached; the call returns unless that dump
    threw, and so always when no listener throws. *)
Theorem push_returns_length s items :
  let s1 := set_queue (queue s ++ items) s in
  let full := limit_reached (opts s) (List.length (queue s ++ items)) in
  let s' := (push items s).2 in
  s' = (if full then (dump s1).2 else s1) ∧
  (push items s).1 =
    match (if full then (dump s1).1 else Return tt) with
    | Return _ => Return (Z.of_nat (List.length (queue s')))
    | Throw e => Throw e
    end ∧
  (Forall quiet (listeners s) →
     (push items s).1 = Return (Z.of_nat (List.length (queue s')))) ∧
  (queue s' = [] → Forall quiet (listeners s) → (push items s).1 = Return 0%Z).
Proof.
  intros s1 full s'.
  assert (Hs : s' = (if full then (dump s1).2 else s1)).
  { unfold s'. rewrite push_run. fold s1 full.
    destruct full; [|done]. by destruct (dump s1) as [[[]|e] s2]. }
  assert (Hr : (push items s).1 =
    match (if full then (dump s1).1 else Return tt) with
    | Return _ => Return (Z.of_nat (List.length (queue s')))
    | Throw e => Throw e
    end).
  { unfold s'. rewrite push_run. fold s1 full.
    destruct full; [|done]. by destruct (dump s1) as [[[]|e] s2]. }
  assert (Hquiet : Forall quiet (listeners s) →
     (push items s).1 = Return (Z.of_nat (List.length (queue s')))).
  { intros Hl. rewrite Hr. destruct full; [|done].
    destruct (decide (queue s1 = [])) as [Hq|Hq].
    - by rewrite (dump_empty_run s1 Hq).
    - destruct (dump_nonempty_facts s1 Hq) as (_ & _ & calls & _ & _ & Hret).
      by destruct (Hret Hl) as [-> _]. }
  repeat split; [done..|].
  intros Hnil Hl. rewrite (Hquiet Hl), Hnil. done.
Qed.

(** Pushing items one at a time up to the size: nothing happens before the
    last push, which dumps the whole queue. *)
Lemma push_each_fills items : ∀ s,
  items ≠ [] →
  Opts.size (opts s) = Some (Z.of_nat (List.length (queue s) + List.length items)) →
  let all := queue s ++ items in
  let res := call_listeners (listeners s) all [] in
  push_each items s =
    (match res.2 with Some e => Throw e | None => Return tt end,
     log (Emit all :: res.1.2) (set_listeners res.1.1 (set_queue [] s))).
Proof.
  induction items as [|x [|y items] IH]; intros s Hne Hsz; [done| |].
  - (* the last item *)
    simpl in Hsz. simpl. unfold mbind, M_bind. rewrite push_run.
    assert (Hlen : List.length (queue s ++ [x]) = List.length (queue s) + 1)
      by (rewrite length_app; simpl; lia).
    assert (Hfull : limit_reached (opts s) (List.length (queue s ++ [x])) = true).
    { unfold limit_reached, truthy. rewrite Hsz, Hlen.
      apply andb_true_iff. split; [|apply Z.leb_le; lia].
      apply negb_true_iff, Z.eqb_neq. lia. }
    rewrite Hfull.
    assert (Hq : queue (set_queue (queue s ++ [x]) s) ≠ [])
      by (simpl; intros H; apply (f_equal List.length) in H; rewrite Hlen in H; simpl in H; lia).
    rewrite (dump_nonempty_run _ Hq). simpl.
    assert (Hk : batch_width (size_limit (opts s)) (List.length (queue s ++ [x]))
                 = List.length (queue s ++ [x])).
    { unfold batch_width, size_limit, truthy. rewrite Hsz, Hlen.
      replace (Z.of_nat (List.length (queue s) + 1) =? 0)%Z with false
        by (symmetry; apply Z.eqb_neq; lia).
      simpl. lia. }
    rewrite Hk, firstn_all, drop_all.
    by destruct (call_listeners (listeners s) (queue s ++ [x]) []) as [[ls' evs] [e|]].
  - (* an item before the last *)
    change (push_each (x :: y :: items) s)
      with ((push [x];; push_each (y :: items)) s).
    unfold mbind at 1, M_bind at 1. rewrite push_run.
    assert (Hlen : List.length (queue s ++ [x]) = List.length (queue s) + 1)
      by (rewrite length_app; simpl; lia).
    assert (Hfull : limit_reached (opts s) (List.length (queue s ++ [x])) = false).
    { unfold limit_reached. rewrite Hsz, Hlen.
      apply andb_false_iff. right. apply Z.leb_gt. simpl. lia. }
    rewrite Hfull.
    rewrite IH; [|done|].
    + simpl. by rewrite <- app_assoc.
    + simpl. rewrite Hsz, Hlen. f_equal. simpl. lia.
Qed.

(** C1. For every positive [N] and every [N] items pushed one at a time
    into a cache whose size is [N] and whose queue is empty, exactly one
    ['dump'] notification fires, its batch is those [N] items in the order
    they were pushed (and it is what each listener is called with), and
    [length] is [0] right after; when no listener throws, every push
    returns. *)
Theorem push_each_size_reached s items :
  queue s = [] →
  items ≠ [] →
  Opts.size (opts s) = Some (Z.of_nat (List.length items)) →
  let s' := (push_each items s).2 in
  emitted (trace s') = emitted (trace s) ++ [items] ∧
  queue s' = [] ∧
  length s' = (Return 0%Z, s') ∧
  ∃ calls,
    trace s' = trace s ++ Emit items :: calls ∧
    Forall (λ ev, ev = Call items []) calls ∧
    (Forall quiet (listeners s) →
       (push_each items s).1 = Return tt ∧
       calls = replicate (List.length (listeners s)) (Call items [])).
Proof.
  intros Hq Hne Hsz s'. unfold s'.
  rewrite (push_each_fills items s Hne) by (by rewrite Hq).
  rewrite Hq. simpl.
  pose proof (call_listeners_calls (listeners s) items []) as Hcalls.
  split; [|split; [done|split; [done|]]].
  - rewrite emitted_app. simpl. by rewrite (emitted_calls _ _ _ Hcalls).
  - exists (call_listeners (listeners s) items []).1.2.
    split; [done|]. split; [done|]. intros Hl.
    by rewrite (call_listeners_quiet _ _ _ (quiet_at _ items [] Hl)).
Qed.

(** C6 (amended). For every state, [setSize] with a new value that is
    positive and at most the length of the queue triggers a dump at once:
    the call is that dump under the new size, one notification fires, its
    batch is the first [newSize] items of the queue, and the rest stays
    queued. *)
Theorem setSize_triggers_dump s newSize :
  (0 < newSize)%Z →
  (newSize ≤ Z.of_nat (List.length (queue s)))%Z →
  let batch := take (Z.to_nat newSize) (queue s) in
  setSize newSize s = dump (set_size (Some newSize) s) ∧
  emitted (trace (setSize newSize s).2) = emitted (trace s) ++ [batch] ∧
  Z.of_nat (List.length batch) = newSize ∧
  queue (setSize newSize s).2 = drop (Z.to_nat newSize) (queue s) ∧
  setSize_dumps newSize s.
Proof.
  intros Hpos Hle batch.
  assert (Hrun : setSize newSize s = dump (set_size (Some newSize) s)).
  { rewrite setSize_run. simpl. unfold limit_reached, truthy. simpl.
    replace (newSize =? 0)%Z with false by (symmetry; apply Z.eqb_neq; lia).
    replace (newSize <=? Z.of_nat (List.length (queue s)))%Z with true
      by (symmetry; apply Z.leb_le; lia).
    done. }
  assert (Hq : queue (set_size (Some newSize) s) ≠ []).
  { simpl. intros H. rewrite H in Hle. simpl in Hle. lia. }
  destruct (dump_nonempty_facts _ Hq) as (Hrest & _ & calls & Htr & Hcalls & _).
  assert (Hk : batch_width (size_limit (opts (set_size (Some newSize) s)))
                 (List.length (queue (set_size (Some newSize) s)))
               = Z.to_nat newSize).
  { unfold batch_width, size_limit, truthy. simpl.
    replace (newSize =? 0)%Z with false by (symmetry; apply Z.eqb_neq; lia).
    simpl. lia. }
  rewrite Hk in Hrest, Htr, Hcalls. simpl in Hrest, Htr, Hcalls.
  assert (Hlen : Z.of_nat (List.length batch) = newSize).
  { unfold batch. rewrite length_take_le; lia. }
  assert (Hem : emitted (trace (setSize newSize s).2) = emitted (trace s) ++ [batch]).
  { rewrite Hrun, Htr, emitted_app. simpl.
    by rewrite (emitted_calls _ _ _ Hcalls). }
  split; [done|]. split; [done|]. split; [done|]. split.
  - by rewrite Hrun.
  - exists batch. split; [done|lia].
Qed.

(** The instance or the exception [new] gives, in one equation. *)
Lemma new_run (o : PythagoreanCacheOpts) :
  new (T:=T) o =
    if negb (ToBoolean (Opts.size o)) && negb (ToBoolean (Opts.interval o))
    then Throw config_error
    else
      match Opts.interval o with
      | Some ms =>
          if truthy ms then
            Return (set_interval (Some 0) (set_timers {[0 := ms]} 1 (fresh o)))
          else Return (fresh o)
      | None => Return (fresh o)
      end.
Proof.
  unfold new, constructor.
  destruct (negb (ToBoolean (Opts.size o)) && negb (ToBoolean (Opts.interval o)));
    [done|].
  unfold startInterval, stopInterval, host_setInterval, mbind, M_bind, gets, modify.
  simpl. destruct (Opts.interval o) as [ms|]; [|done]. by destruct (truthy ms).
Qed.

(** Closes one direction of the case analysis on a configuration. *)
Local Ltac config_case H :=
  repeat match type of H with
  | ∃ _, _ => destruct H as [? H]
  | _ ∧ _ => destruct H as [H ?]
  | _ ∨ _ => destruct H as [H|H]
  end;
  try discriminate;
  first [ done | by left | by right | by eexists
        | eexists; repeat split; reflexivity ].

(** C4 (amended). Construction fails, with the error of the constructor,
    exactly when neither [size] nor [interval] holds a number other than
    [0] (each is absent or [0]); when one of them does, alone or with the
    other, it succeeds and returns an instance with an empty queue and the
    options it was given. *)
Theorem constructor_fails_iff_falsy (o : PythagoreanCacheOpts) :
  (fails (new (T:=T) o) ↔
     ToBoolean (Opts.size o) = false ∧ ToBoolean (Opts.interval o) = false) ∧
  (fails (new (T:=T) o) ↔ new (T:=T) o = Throw config_error) ∧
  (ToBoolean (Opts.size o) = true ∨ ToBoolean (Opts.interval o) = true ↔
     ∃ s : State T, new o = Return s ∧ queue s = [] ∧ opts s = o ∧
                    listeners s = [] ∧ trace s = []).
Proof.
  rewrite new_run. unfold fails.
  destruct o as [[n|] [ms|]]; simpl;
    try destruct (truthy n); try destruct (truthy ms); simpl;
    (split; [|split]); split; intros H; config_case H.
Qed.

(** After [stopInterval] the handle the instance holds, if any, is not
    armed. *)
Lemma stopInterval_disarms s h :
  interval (stopInterval s).2 = Some h → timers (stopInterval s).2 !! h = None.
Proof.
  unfold stopInterval, host_clearInterval, mbind, M_bind, gets, modify. simpl.
  destruct (interval s) as [t|] eqn:Ht; simpl; [|by rewrite Ht].
  rewrite Ht. intros [= <-]. apply lookup_delete_eq.
Qed.

Lemma stopInterval_inactive_run s :
  (∀ h, interval s = Some h → timers s !! h = None) →
  stopInterval s = (Return tt, s).
Proof.
  intros Hin.
  unfold stopInterval, host_clearInterval, mbind, M_bind, gets, modify. simpl.
  destruct (interval s) as [t|] eqn:Ht; [|done].
  rewrite (delete_id _ _ (Hin t eq_refl)). by destruct s.
Qed.

(** Stopping twice: the second call changes nothing. *)
Lemma stopInterval_twice s :
  stopInterval (stopInterval s).2 = (Return tt, (stopInterval s).2).
Proof. apply stopInterval_inactive_run, stopInterval_disarms. Qed.

(** C9. Calling [stopInterval] when no timer of the instance is active (it
    holds no handle, none having been started, or the handle it holds is
    not armed any more, having been stopped) is a safe no-op: the call
    returns, and the state after it is the state before it, so that no
    timer is armed and queue and options are what they were. *)
Theorem stopInterval_inactive_noop s :
  (∀ h, interval s = Some h → timers s !! h = None) →
  stopInterval s = (Return tt, s).
Proof. apply stopInterval_inactive_run. Qed.

(** C10. A size of [0] behaves as no size at all: [checkLimit] returns
    [false] whatever the queue holds; [dump] drains the whole queue (one
    notification with the whole queue when it holds something); [dump] and
    [push] return and do what they return and do with [size] absent; and
    the configuration [{size: 0}] fails construction, as every
    configuration with [size: 0] does what it does without [size]. *)
Theorem size_zero_is_no_size s items (i : option Z) :
  let s0 := set_size (Some 0%Z) s in
  let sN := set_size None s in
  checkLimit s0 = (Return false, s0) ∧
  queue (dump s0).2 = [] ∧
  emitted (trace (dump s0).2)
    = emitted (trace s) ++ (match queue s with [] => [] | _ => [queue s] end) ∧
  ((dump s0).1 = (dump sN).1 ∧ (dump s0).2 = set_size (Some 0%Z) (dump sN).2) ∧
  ((push items s0).1 = (push items sN).1 ∧
   (push items s0).2 = set_size (Some 0%Z) (push items sN).2) ∧
  new (T:=T) (Opts.mk (Some 0%Z) None) = Throw config_error ∧
  new (T:=T) (Opts.mk (Some 0%Z) i)
    = match new (Opts.mk None i) with
      | Return s' => Return (set_size (Some 0%Z) s')
      | Throw e => Throw e
      end.
Proof.
  intros s0 sN.
  assert (Hdump : (dump s0).1 = (dump sN).1 ∧
                  (dump s0).2 = set_size (Some 0%Z) (dump sN).2).
  { destruct (decide (queue s = [])) as [Hq|Hq].
    - rewrite (dump_empty_run s0), (dump_empty_run sN) by done. done.
    - rewrite (dump_nonempty_run s0), (dump_nonempty_run sN) by done. done. }
  split; [by rewrite checkLimit_run|].
  split; [|split; [|split; [done|split; [|split]]]].
  - destruct (decide (queue s = [])) as [Hq|Hq].
    + by rewrite (dump_empty_run s0).
    + destruct (dump_nonempty_facts s0 Hq) as (-> & _). simpl. apply drop_all.
  - destruct (queue s) as [|x q] eqn:Hq.
    + rewrite (dump_empty_run s0) by done. simpl. by rewrite app_nil_r.
    + assert (Hne : queue s0 ≠ []) by (simpl; by rewrite Hq).
      destruct (dump_nonempty_facts s0 Hne) as (_ & _ & calls & -> & Hcalls & _).
      rewrite emitted_app. simpl. rewrite (emitted_calls _ _ _ Hcalls).
      simpl. by rewrite firstn_all, Hq.
  - by rewrite !push_run.
  - by rewrite new_run.
  - rewrite !new_run. destruct i as [ms|]; [|done].
    simpl. unfold truthy. by destruct (ms =? 0)%Z.
Qed.

End Properties.

(** ** The properties at instances, and the scenarios of the test suite *)

(** [size: 10], a listener registered with [once], the integers [0..9]
    pushed one at a time: one notification, with [[0; ...; 9]]. *)
Lemma push_each_size_reached_witness :
  let s := after (once_ returns) cache10 in
  let items := seq 0 10 in
  queue s = [] ∧ items ≠ [] ∧
  Opts.size (opts s) = Some (Z.of_nat (List.length items)) ∧
  emitted (trace (push_each items s).2) = emitted (trace s) ++ [items].
Proof.
  intros s items.
  assert (H1 : queue s = []) by reflexivity.
  assert (H2 : items ≠ []) by discriminate.
  assert (H3 : Opts.size (opts s) = Some (Z.of_nat (List.length items)))
    by reflexivity.
  split; [exact H1|]. split; [exact H2|]. split; [exact H3|].
  exact (proj1 (push_each_size_reached s items H1 H2 H3)).
Defined.

(** Five items queued under [size: 10], the size set to [2] (which dumps
    two of them), then [dump]: two more leave, the last one stays. *)
Lemma dump_extracts_batch_witness :
  let s := after (push [1; 2; 3; 4; 5];; setSize 2) cache10 in
  queue s = [3; 4; 5] ∧ queue s ≠ [] ∧
  emitted (trace (dump s).2) = emitted (trace s) ++ [[3; 4]] ∧
  queue (dump s).2 = [5].
Proof.
  intros s.
  assert (H : queue s ≠ []) by discriminate.
  split; [reflexivity|]. split; [exact H|].
  pose proof (dump_extracts_batch s H) as (_ & _ & _ & _ & Hrest & Hem & _).
  split; [exact Hem|exact Hrest].
Defined.

Lemma dump_empty_noop_witness :
  queue cache10 = [] ∧ dump cache10 = (Return tt, cache10).
Proof. split; [reflexivity|]. apply dump_empty_noop. reflexivity. Defined.

(** Three items queued, the size set to [2]: the first two are dumped. *)
Lemma setSize_triggers_dump_witness :
  let s := after (push [1; 2; 3]) cache10 in
  (0 < 2)%Z ∧ (2 ≤ Z.of_nat (List.length (queue s)))%Z ∧
  emitted (trace (setSize 2 s).2) = emitted (trace s) ++ [[1; 2]] ∧
  queue (setSize 2 s).2 = [3].
Proof.
  intros s.
  assert (H1 : (0 < 2)%Z) by lia.
  assert (H2 : (2 ≤ Z.of_nat (List.length (queue s)))%Z) by (simpl; lia).
  split; [exact H1|]. split; [exact H2|].
  pose proof (setSize_triggers_dump s 2 H1 H2) as (_ & Hem & _ & Hrest & _).
  split; [exact Hem|exact Hrest].
Defined.

(** [stopInterval] called a second time on a cache made with
    [interval: 10]. *)
Lemma stopInterval_inactive_noop_witness :
  let s := after stopInterval (instance (Opts.mk None (Some 10%Z))) in
  interval s = Some 0 ∧ timers s !! 0 = None ∧
  stopInterval s = (Return tt, s).
Proof.
  intros s. split; [reflexivity|]. split; [reflexivity|].
  apply stopInterval_inactive_noop.
  intros h Hh. vm_compute in Hh. injection Hh as <-. reflexivity.
Defined.

(** [stopInterval] on a cache made with [size: 10], which never had a
    timer. *)
Example stopInterval_never_started :
  stopInterval cache10 = (Return tt, cache10).
Proof. reflexivity. Qed.

(** C4, as stated, fails: [{interval: 0}] has [interval] set, and its
    construction throws. *)
Lemma constructor_interval_zero_fails :
  ¬ (∀ o : PythagoreanCacheOpts,
       fails (new (T:=nat) o) ↔ Opts.size o = None ∧ Opts.interval o = None).
Proof.
  intros H. destruct (H (Opts.mk None (Some 0%Z))) as [Hfail _].
  assert (Hthrows : fails (new (T:=nat) (Opts.mk None (Some 0%Z))))
    by (exists config_error; reflexivity).
  destruct (Hfail Hthrows) as [_ Hint]. discriminate Hint.
Qed.

(** So does [{size: 0}]. *)
Example constructor_size_zero_fails :
  new (T:=nat) (Opts.mk (Some 0%Z) None) = Throw config_error.
Proof. reflexivity. Qed.

(** C6, as stated, fails: with one item queued, [setSize(0)] is a call with
    a value at most the length of a non-empty queue, and no dump fires. *)
Lemma setSize_zero_no_dump :
  ¬ (∀ (s : State nat) (newSize : Z),
       (newSize ≤ Z.of_nat (List.length (queue s)))%Z → queue s ≠ [] →
       setSize_dumps newSize s).
Proof.
  intros H.
  destruct (H (after (push [1]) cache10) 0%Z) as (batch & Hem & _).
  - simpl. lia.
  - discriminate.
  - vm_compute in Hem. discriminate Hem.
Qed.

Example setSize_zero_leaves_all :
  let s := after (push [1]) cache10 in
  setSize 0 s = (Return tt, set_size (Some 0%Z) s) ∧
  trace (setSize 0 s).2 = [] ∧ queue (setSize 0 s).2 = [1].
Proof. repeat split. Qed.

(** Test "dump(): should emit items": [size: 10], [push('foo')], a listener
    registered with [once], [dump()]; the listener is called with the one
    item, and is not registered any more. *)
Example test_dump_emits_items :
  let s := after (push [7];; once_ returns;; dump) cache10 in
  trace s = [Emit [7]; Call [7] []] ∧ queue s = [] ∧ listeners s = [].
Proof. repeat split. Qed.

(** Test "should emit items when interval is reached": [interval: 10], ten
    items pushed, then the timer fires. *)
Example test_interval_reached :
  let s := after (once_ returns;; push_each (seq 0 10);; timer_fires 0)
             (instance (Opts.mk None (Some 10%Z))) in
  trace s = [Emit (seq 0 10); Call (seq 0 10) []] ∧ queue s = [].
Proof. repeat split. Qed.

(** A listener that throws: the exception leaves [push], the batch has
    left the queue all the same, and a listener registered after it is not
    called. *)
Example listener_throws :
  let boom : list nat → list nat → option string := λ _ _, Some "boom"%string in
  let r := (on boom;; on returns;; push [1; 2];; setSize 1) cache10 in
  r.1 = Throw "boom"%string ∧ queue r.2 = [2] ∧
  trace r.2 = [Emit [1]; Call [1] [2]].
Proof. repeat split. Qed.

(** * Properties of the rest of the class *)

Section Further.

Context {T : Type}.
Implicit Types (s : State T) (q items seen : list T) (ls : list (Listener T)).
Implicit Types (ops : list (Op T)).

(** ** What each method leaves alone *)

Lemma dump_frame s :
  opts (dump s).2 = opts s ∧ interval (dump s).2 = interval s ∧
  timers (dump s).2 = timers s ∧ next_timer (dump s).2 = next_timer s.
Proof.
  destruct (decide (queue s = [])) as [Hq|Hq].
  - by rewrite (dump_empty_run s Hq).
  - by rewrite (dump_nonempty_run s Hq).
Qed.

Lemma concat_snoc (bs : list (list T)) (b : list T) :
  concat (bs ++ [b]) = concat bs ++ b.
Proof. rewrite concat_app. simpl. by rewrite app_nil_r. Qed.

Lemma dump_flow s : flow (dump s).2 = flow s.
Proof.
  destruct (decide (queue s = [])) as [Hq|Hq].
  - by rewrite (dump_empty_run s Hq).
  - destruct (dump_nonempty_facts s Hq) as (Hrest & _ & calls & Htr & Hcalls & _).
    unfold flow. rewrite Hrest, Htr, emitted_app. simpl.
    rewrite (emitted_calls _ _ _ Hcalls), concat_snoc, <- app_assoc.
    by rewrite take_drop.
Qed.

Lemma push_state s items :
  (push items s).2 =
    if limit_reached (opts s) (List.length (queue s ++ items))
    then (dump (set_queue (queue s ++ items) s)).2
    else set_queue (queue s ++ items) s.
Proof.
  rewrite push_run. destruct (limit_reached _ _); [|done].
  by destruct (dump _) as [[[]|e] s2].
Qed.

Lemma push_frame s items :
  opts (push items s).2 = opts s ∧ interval (push items s).2 = interval s ∧
  timers (push items s).2 = timers s.
Proof.
  rewrite push_state. destruct (limit_reached _ _); [|done].
  by destruct (dump_frame (set_queue (queue s ++ items) s)) as (-> & -> & -> & _).
Qed.

Lemma push_flow s items : flow (push items s).2 = flow s ++ items.
Proof.
  rewrite push_state. destruct (limit_reached _ _).
  - rewrite dump_flow. unfold flow. simpl. by rewrite app_assoc.
  - unfold flow. simpl. by rewrite app_assoc.
Qed.

Lemma setSize_state s newSize :
  (setSize newSize s).2 =
    if limit_reached (opts (set_size (Some newSize) s)) (List.length (queue s))
    then (dump (set_size (Some newSize) s)).2
    else set_size (Some newSize) s.
Proof. rewrite setSize_run. simpl. by destruct (limit_reached _ _). Qed.

Lemma setSize_frame s newSize :
  interval (setSize newSize s).2 = interval s ∧
  timers (setSize newSize s).2 = timers s.
Proof.
  rewrite setSize_state. destruct (limit_reached _ _); [|done].
  by destruct (dump_frame (set_size (Some newSize) s)) as (_ & -> & -> & _).
Qed.

Lemma setSize_flow s newSize : flow (setSize newSize s).2 = flow s.
Proof.
  rewrite setSize_state. destruct (limit_reached _ _); [|done].
  by rewrite dump_flow.
Qed.

Lemma stopInterval_state s :
  stopInterval s =
    (Return tt,
     match interval s with
     | Some h => set_timers (delete h (timers s)) (next_timer s) s
     | None => s
     end).
Proof.
  unfold stopInterval, host_clearInterval, mbind, M_bind, gets, modify. simpl.
  by destruct (interval s).
Qed.

Lemma startInterval_state s :
  startInterval s =
    (Return tt,
     let s1 := (stopInterval s).2 in
     match Opts.interval (opts s) with
     | Some ms =>
         if truthy ms then
           set_interval (Some (next_timer s))
             (set_timers (<[next_timer s := ms]> (timers s1)) (S (next_timer s)) s1)
         else s1
     | None => s1
     end).
Proof.
  unfold startInterval, mbind at 1, M_bind at 1.
  rewrite stopInterval_state. simpl.
  unfold host_setInterval, mbind, M_bind, gets, modify. simpl.
  destruct (interval s); simpl;
    (destruct (Opts.interval (opts s)) as [ms|]; [|done]);
    by destruct (truthy ms).
Qed.

Lemma timer_fires_state s h :
  timer_fires h s =
    match timers s !! h with
    | Some _ => dump s
    | None => (Return tt, s)
    end.
Proof.
  unfold timer_fires, mbind, M_bind, gets. simpl. by destruct (timers s !! h).
Qed.

(** With the only timer being the one the instance holds, [stopInterval]
    leaves no timer armed. *)
Lemma stopInterval_empties s :
  one_timer s → timers (stopInterval s).2 = ∅.
Proof.
  intros Hone. rewrite stopInterval_state. simpl.
  apply map_eq. intros h'. rewrite lookup_empty.
  destruct (interval s) as [h|] eqn:Hh; simpl.
  - destruct (decide (h = h')) as [->|Hne]; [apply lookup_delete_eq|].
    rewrite lookup_delete_ne by done.
    destruct (timers s !! h') eqn:Hl; [|done].
    assert (interval s = Some h') by (apply Hone; eauto). congruence.
  - destruct (timers s !! h') eqn:Hl; [|done].
    assert (interval s = Some h') by (apply Hone; eauto). congruence.
Qed.

Lemma one_timer_frame s s' :
  timers s' = timers s → interval s' = interval s →
  one_timer s → one_timer s'.
Proof. unfold one_timer. intros -> ->. done. Qed.

Lemma stopInterval_one_timer s : one_timer s → one_timer (stopInterval s).2.
Proof.
  intros Hone h Hh. rewrite (stopInterval_empties s Hone), lookup_empty in Hh.
  by destruct Hh.
Qed.

Lemma startInterval_timers s :
  one_timer s →
  timers (startInterval s).2 =
    match Opts.interval (opts s) with
    | Some ms => if truthy ms then {[next_timer s := ms]} else ∅
    | None => ∅
    end.
Proof.
  intros Hone. rewrite startInterval_state. simpl.
  destruct (Opts.interval (opts s)) as [ms|]; [destruct (truthy ms)|];
    simpl; rewrite ?(stopInterval_empties s Hone); done.
Qed.

Lemma startInterval_one_timer s : one_timer s → one_timer (startInterval s).2.
Proof.
  intros Hone h Hh. rewrite (startInterval_timers s Hone) in Hh.
  rewrite startInterval_state. simpl.
  destruct (Opts.interval (opts s)) as [ms|]; [destruct (truthy ms)|]; simpl.
  - destruct (decide (next_timer s = h)) as [->|Hne]; [done|].
    rewrite lookup_singleton_ne in Hh by done. by destruct Hh.
  - rewrite lookup_empty in Hh. by destruct Hh.
  - rewrite lookup_empty in Hh. by destruct Hh.
Qed.


Lemma stopInterval_keeps s :
  queue (stopInterval s).2 = queue s ∧ trace (stopInterval s).2 = trace s ∧
  listeners (stopInterval s).2 = listeners s ∧ opts (stopInterval s).2 = opts s ∧
  interval (stopInterval s).2 = interval s.
Proof.
  rewrite stopInterval_state. simpl.
  destruct (interval s) eqn:E; simpl; by rewrite ?E.
Qed.

Lemma startInterval_keeps s :
  queue (startInterval s).2 = queue s ∧ trace (startInterval s).2 = trace s ∧
  listeners (startInterval s).2 = listeners s ∧ opts (startInterval s).2 = opts s.
Proof.
  destruct (stopInterval_keeps s) as (Hq & Ht & Hl & Ho & _).
  rewrite startInterval_state. simpl.
  destruct (Opts.interval (opts s)) as [ms|]; [destruct (truthy ms)|]; done.
Qed.

Lemma setInterval_run s newInterval :
  setInterval newInterval s =
    startInterval (set_opts_interval (Some newInterval) s).
Proof. done. Qed.

Lemma run_push_state s items : (run_op (Push items) s).2 = (push items s).2.
Proof.
  simpl. unfold mbind, M_bind. by destruct (push items s) as [[n|e] s'].
Qed.

(** One step adds what it pushes to what went through the cache, and
    nothing else. *)
Lemma run_op_flow (op : Op T) s :
  flow (run_op op s).2 = flow s ++ pushed [op].
Proof.
  destruct op as [items| |n|n| | |h|f|f]; simpl pushed; rewrite ?app_nil_r.
  - rewrite run_push_state. apply push_flow.
  - apply dump_flow.
  - apply setSize_flow.
  - simpl. rewrite setInterval_run. unfold flow.
    by destruct (startInterval_keeps (set_opts_interval (Some n) s)) as (-> & -> & _).
  - simpl. unfold flow. by destruct (startInterval_keeps s) as (-> & -> & _).
  - simpl. unfold flow. by destruct (stopInterval_keeps s) as (-> & -> & _).
  - simpl. rewrite timer_fires_state.
    destruct (timers s !! h); [apply dump_flow|done].
  - done.
  - done.
Qed.

Lemma pushed_app ops ops' : pushed (ops ++ ops') = pushed ops ++ pushed ops'.
Proof.
  induction ops as [|op ops IH]; [done|].
  destruct op; simpl; rewrite ?IH, ?app_assoc; done.
Qed.

(** One step keeps the timers to the one the instance holds. *)
Lemma run_op_one_timer (op : Op T) s :
  one_timer s → one_timer (run_op op s).2.
Proof.
  intros Hone. destruct op as [items| |n|n| | |h|f|f].
  - rewrite run_push_state.
    destruct (push_frame s items) as (_ & Hi & Ht).
    by apply (one_timer_frame s).
  - destruct (dump_frame s) as (_ & Hi & Ht & _). by apply (one_timer_frame s).
  - destruct (setSize_frame s n) as (Hi & Ht). by apply (one_timer_frame s).
  - simpl. rewrite setInterval_run. by apply startInterval_one_timer.
  - by apply startInterval_one_timer.
  - by apply stopInterval_one_timer.
  - simpl. rewrite timer_fires_state.
    destruct (timers s !! h); [|done].
    destruct (dump_frame s) as (_ & Hi & Ht & _). by apply (one_timer_frame s).
  - done.
  - done.
Qed.

Lemma new_one_timer (o : PythagoreanCacheOpts) s :
  new o = Return s → one_timer s.
Proof.
  rewrite new_run.
  destruct (negb _ && negb _); [discriminate|].
  destruct (Opts.interval o) as [ms|]; [destruct (truthy ms)|];
    intros [= <-] h Hh; simpl in *.
  - destruct (decide (0 = h)) as [<-|Hne]; [done|].
    rewrite lookup_singleton_ne in Hh by done. by destruct Hh.
  - rewrite lookup_empty in Hh. by destruct Hh.
  - rewrite lookup_empty in Hh. by destruct Hh.
Qed.

(** ** The properties *)

(** X1. Nothing is lost, repeated or reordered: whatever a program does
    with a cache (pushes, dumps, changes of size and interval, timers
    firing, listeners that throw), the batches notified so far, one after
    the other, followed by what the queue holds, are the items pushed so
    far, in the order they were pushed. *)
Theorem run_ops_conserves_items ops s :
  flow (run_ops ops s) = flow s ++ pushed ops.
Proof.
  revert s. induction ops as [|op ops IH]; intros s; simpl run_ops.
  - simpl. by rewrite app_nil_r.
  - rewrite IH, run_op_flow. change (op :: ops) with ([op] ++ ops).
    by rewrite pushed_app, app_assoc.
Qed.

(** X2. An instance never has two timers armed: after construction and
    after any program, a timer that is armed is the one whose handle the
    instance holds, so that any two armed timers are the same. *)
Theorem run_ops_one_timer (o : PythagoreanCacheOpts) s ops :
  new o = Return s →
  one_timer (run_ops ops s) ∧
  ∀ h1 h2, is_Some (timers (run_ops ops s) !! h1) →
           is_Some (timers (run_ops ops s) !! h2) → h1 = h2.
Proof.
  intros Hnew. apply new_one_timer in Hnew.
  assert (Hone : one_timer (run_ops ops s)).
  { revert s Hnew. induction ops as [|op ops IH]; intros s Hs; [done|].
    simpl. apply IH. by apply run_op_one_timer. }
  split; [done|]. intros h1 h2 H1 H2.
  apply Hone in H1. apply Hone in H2. congruence.
Qed.


(** ** More equations *)

Lemma limit_reached_true o len :
  limit_reached o len = true ↔
  ∃ n, Opts.size o = Some n ∧ n ≠ 0%Z ∧ (n ≤ Z.of_nat len)%Z.
Proof.
  unfold limit_reached, truthy. destruct (Opts.size o) as [n|].
  - rewrite andb_true_iff, negb_true_iff, Z.eqb_neq, Z.leb_le. split.
    + intros [Hnz Hle]. by exists n.
    + by intros (m & [= <-] & Hnz & Hle).
  - split; [discriminate|]. by intros (m & [=] & _).
Qed.

Lemma limit_reached_below o len :
  (∀ n, size_limit o = Some n → (Z.of_nat len < n)%Z) →
  limit_reached o len = false.
Proof.
  intros Hbelow. apply not_true_is_false. intros Hb.
  apply limit_reached_true in Hb as (n & Hn & Hnz & Hle).
  assert (Z.of_nat len < n)%Z by (apply Hbelow; by apply size_limit_Some).
  lia.
Qed.

Lemma call_listeners_keeps (P : Listener T → Prop) ls items seen :
  Forall P ls → Forall P (call_listeners ls items seen).1.1.
Proof.
  induction 1 as [|l ls Hl Hls IH]; simpl; [constructor|].
  destruct (handler l items seen); simpl.
  - destruct (once l); simpl; [done|by constructor].
  - destruct (call_listeners ls items seen) as [[ls' evs] r]; simpl in *.
    destruct (once l); simpl; [done|by constructor].
Qed.

(** With listeners that do not throw, [dump] returns, and the listeners
    that stay registered do not throw either. *)
Lemma dump_quiet s :
  Forall quiet (listeners s) →
  (dump s).1 = Return tt ∧ Forall quiet (listeners (dump s).2).
Proof.
  intros Hl. destruct (decide (queue s = [])) as [Hq|Hq].
  - by rewrite (dump_empty_run s Hq).
  - destruct (dump_nonempty_facts s Hq) as (_ & _ & calls & _ & _ & Hret).
    split; [by destruct (Hret Hl)|].
    rewrite (dump_nonempty_run s Hq). simpl. by apply call_listeners_keeps.
Qed.

(** A push that reaches a positive size: the first [size] items of the
    queue, the pushed items included, make the one batch that is dumped. *)
Lemma push_full_facts s items n :
  Opts.size (opts s) = Some n → (0 < n)%Z →
  (n ≤ Z.of_nat (List.length (queue s ++ items)))%Z →
  let all := queue s ++ items in
  queue (push items s).2 = drop (Z.to_nat n) all ∧
  opts (push items s).2 = opts s ∧
  emitted (trace (push items s).2)
    = emitted (trace s) ++ [take (Z.to_nat n) all] ∧
  (Forall quiet (listeners s) →
     (push items s).1 = Return (Z.of_nat (List.length all) - n)%Z ∧
     Forall quiet (listeners (push items s).2)).
Proof.
  intros Hn Hpos Hle all.
  assert (Hfull : limit_reached (opts s) (List.length all) = true).
  { apply limit_reached_true. exists n. repeat split; [done|lia|done]. }
  set (s1 := set_queue all s).
  assert (Hq : queue s1 ≠ []).
  { intros H. change (queue s1) with (queue s ++ items) in H.
    rewrite H in Hle. simpl in Hle. lia. }
  assert (Hk : batch_width (size_limit (opts s1)) (List.length (queue s1))
               = Z.to_nat n).
  { simpl. rewrite (batch_width_limit _ n) by done. unfold all. lia. }
  destruct (dump_nonempty_facts s1 Hq) as (Hrest & Hopts & calls & Htr & Hcalls & _).
  rewrite Hk in Hrest, Htr, Hcalls. simpl in Hrest, Htr, Hcalls.
  assert (Hst : (push items s).2 = (dump s1).2).
  { rewrite push_state. fold all. by rewrite Hfull. }
  rewrite Hst. split; [done|]. split; [done|]. split.
  - rewrite Htr, emitted_app. simpl. by rewrite (emitted_calls _ _ _ Hcalls).
  - intros Hl. destruct (dump_quiet s1 Hl) as [Hret Hl']. split; [|done].
    rewrite push_run. fold all s1. rewrite Hfull.
    destruct (dump s1) as [[[]|e] s2] eqn:Hd; simpl in *; [|discriminate].
    rewrite Hrest, length_drop. f_equal. unfold all. lia.
Qed.

Lemma push_below_run s items :
  (∀ n, size_limit (opts s) = Some n →
        (Z.of_nat (List.length (queue s ++ items)) < n)%Z) →
  push items s =
    (Return (Z.of_nat (List.length (queue s ++ items))),
     set_queue (queue s ++ items) s).
Proof.
  intros Hbelow. rewrite push_run.
  by rewrite (limit_reached_below _ _ Hbelow).
Qed.

Lemma push_each_no_limit items : ∀ s,
  size_limit (opts s) = None →
  push_each items s = (Return tt, set_queue (queue s ++ items) s).
Proof.
  induction items as [|x items IH]; intros s Hno.
  - simpl. rewrite app_nil_r. by destruct s.
  - change (push_each (x :: items) s) with ((push [x];; push_each items) s).
    unfold mbind at 1, M_bind at 1.
    rewrite push_below_run by (intros n Hn; congruence).
    rewrite IH by done. simpl. by rewrite <- app_assoc.
Qed.

Lemma dump_positive_size_queue s n :
  Opts.size (opts s) = Some n → (0 < n)%Z →
  queue (dump s).2 = drop (Z.to_nat n) (queue s).
Proof.
  intros Hn Hpos. destruct (decide (queue s = [])) as [Hq|Hq].
  - rewrite (dump_empty_run s Hq), Hq. by rewrite drop_nil.
  - destruct (dump_nonempty_facts s Hq) as (-> & _).
    rewrite (batch_width_limit _ n) by done.
    destruct (Nat.min_spec (Z.to_nat n) (List.length (queue s))) as [[_ ->]|[Hge ->]];
      [done|].
    by rewrite drop_all, drop_ge.
Qed.

(** ** The properties, continued *)

(** X3. A push that does not reach the size (no size limit is in force, or
    the queue with the pushed items is shorter than the limit) only
    appends: the items are at the end of the queue in the order given, no
    listener is called, nothing is notified, and the value returned is the
    new length. *)
Theorem push_below_limit s items :
  (∀ n, size_limit (opts s) = Some n →
        (Z.of_nat (List.length (queue s ++ items)) < n)%Z) →
  push items s =
    (Return (Z.of_nat (List.length (queue s) + List.length items)),
     set_queue (queue s ++ items) s).
Proof.
  intros Hbelow. rewrite (push_below_run s items Hbelow).
  by rewrite length_app.
Qed.

(** X4. A push that reaches a positive size [n] dumps one batch, and one
    only, however many items it was given: the first [n] items of the
    queue with the pushed items appended; everything after them stays
    queued, so that the queue can still hold [n] items or more when the
    call returns; with listeners that do not throw the value returned is
    the number of items left. *)
Theorem push_over_limit_one_batch s items n :
  Opts.size (opts s) = Some n → (0 < n)%Z →
  (n ≤ Z.of_nat (List.length (queue s ++ items)))%Z →
  queue (push items s).2 = drop (Z.to_nat n) (queue s ++ items) ∧
  emitted (trace (push items s).2)
    = emitted (trace s) ++ [take (Z.to_nat n) (queue s ++ items)] ∧
  (Forall quiet (listeners s) →
     (push items s).1
       = Return (Z.of_nat (List.length (queue s ++ items)) - n)%Z).
Proof.
  intros Hn Hpos Hle.
  destruct (push_full_facts s items n Hn Hpos Hle) as (Hq & _ & Hem & Hret).
  split; [done|]. split; [done|]. intros Hl. by destruct (Hret Hl).
Qed.

(** X5. Items pushed one at a time under a positive size [n], into a queue
    shorter than [n], with listeners that do not throw: every push returns,
    every batch notified holds exactly [n] items, the batches followed by
    the queue are the old queue followed by the items, and the queue is
    shorter than [n] again at the end. *)
Theorem push_each_batches n items : ∀ s,
  Opts.size (opts s) = Some n → (0 < n)%Z →
  (Z.of_nat (List.length (queue s)) < n)%Z →
  Forall quiet (listeners s) →
  (push_each items s).1 = Return tt ∧
  ∃ batches,
    emitted (trace (push_each items s).2) = emitted (trace s) ++ batches ∧
    Forall (λ b, Z.of_nat (List.length b) = n) batches ∧
    concat batches ++ queue (push_each items s).2 = queue s ++ items ∧
    (Z.of_nat (List.length (queue (push_each items s).2)) < n)%Z.
Proof.
  induction items as [|x items IH]; intros s Hn Hpos Hlt Hl.
  - split; [done|]. exists []. simpl. rewrite !app_nil_r. by repeat split.
  - assert (Hstep : push_each (x :: items) s =
      match push [x] s with
      | (Return _, s') => push_each items s'
      | (Throw e, s') => (Throw e, s')
      end) by done.
    rewrite Hstep. clear Hstep.
    assert (Hlen : List.length (queue s ++ [x]) = S (List.length (queue s)))
      by (rewrite length_app; simpl; lia).
    destruct (decide (Z.of_nat (List.length (queue s ++ [x])) < n)%Z) as [Hb|Hb].
    + (* the size is not reached *)
      rewrite push_below_run
        by (intros m Hm; apply size_limit_Some in Hm as [Hm _]; congruence).
      destruct (IH (set_queue (queue s ++ [x]) s))
        as (Hret & batches & Hem & Hall & Hcat & Hlt'); [done..|].
      split; [done|]. exists batches. simpl in Hem, Hcat.
      rewrite <- app_assoc in Hcat. by repeat split.
    + (* the size is reached: the whole queue is dumped *)
      assert (Hle : (n ≤ Z.of_nat (List.length (queue s ++ [x])))%Z) by lia.
      destruct (push_full_facts s [x] n Hn Hpos Hle)
        as (Hq & Hopts & Hem & Hquiet).
      destruct (Hquiet Hl) as [Hret Hl'].
      assert (Hwhole : Z.to_nat n = List.length (queue s ++ [x])) by lia.
      rewrite Hwhole, drop_all in Hq. rewrite Hwhole, firstn_all in Hem.
      destruct (push [x] s) as [[v|e] s2] eqn:Hp; simpl in *; [|discriminate].
      destruct (IH s2) as (Hret2 & batches & Hem2 & Hall & Hcat & Hlt');
        [congruence|done|rewrite Hq; simpl; lia|done|].
      split; [done|]. exists ((queue s ++ [x]) :: batches).
      split; [|split; [|split]].
      * rewrite Hem2, Hem, <- app_assoc. done.
      * constructor; [lia|done].
      * simpl. rewrite <- (app_assoc (queue s ++ [x])), Hcat, Hq. simpl.
        by rewrite <- app_assoc.
      * done.
Qed.

(** X6. A negative size makes [dump] notify an empty batch and take
    nothing: on a queue that holds something the queue is what it was, one
    notification with no item is added, and [checkLimit] is [true]. *)
Theorem dump_negative_size s n :
  Opts.size (opts s) = Some n → (n < 0)%Z → queue s ≠ [] →
  queue (dump s).2 = queue s ∧
  emitted (trace (dump s).2) = emitted (trace s) ++ [[]] ∧
  checkLimit s = (Return true, s).
Proof.
  intros Hn Hneg Hq.
  assert (Hlim : size_limit (opts s) = Some n)
    by (apply size_limit_Some; split; [done|lia]).
  destruct (dump_nonempty_facts s Hq) as (Hrest & _ & calls & Htr & Hcalls & _).
  rewrite Hlim in Hrest, Htr, Hcalls.
  assert (Hk : batch_width (Some n) (List.length (queue s)) = 0)
    by (unfold batch_width; lia).
  rewrite Hk in Hrest, Htr, Hcalls. simpl in Hrest, Htr, Hcalls.
  split; [by rewrite Hrest|]. split.
  - rewrite Htr, emitted_app. simpl. by rewrite (emitted_calls _ _ _ Hcalls).
  - rewrite checkLimit_run. f_equal. f_equal.
    apply limit_reached_true. exists n. repeat split; [done|lia|lia].
Qed.

(** X7. [setSize] with [0], or with a value above the length of the queue,
    dumps nothing: it returns, and only the size of the options changes. *)
Theorem setSize_without_dump s newSize :
  newSize = 0%Z ∨ (Z.of_nat (List.length (queue s)) < newSize)%Z →
  setSize newSize s = (Return tt, set_size (Some newSize) s).
Proof.
  intros Hcase. rewrite setSize_run. simpl.
  rewrite limit_reached_below; [done|].
  intros n Hn. apply size_limit_Some in Hn as [[= <-] Hnz].
  destruct Hcase as [->|Hlt]; [done|exact Hlt].
Qed.

(** X8. Under a positive size [n], [k] calls of [dump] in a row take the
    first [k * n] items off the queue (all of it once [k * n] reaches its
    length), whatever the listeners do. *)
Theorem dumps_drain s n k :
  Opts.size (opts s) = Some n → (0 < n)%Z →
  queue (run_ops (replicate k Dump) s) = drop (k * Z.to_nat n) (queue s) ∧
  (List.length (queue s) ≤ k * Z.to_nat n →
   queue (run_ops (replicate k Dump) s) = []).
Proof.
  intros Hn Hpos.
  assert (Hq : queue (run_ops (replicate k Dump) s)
               = drop (k * Z.to_nat n) (queue s)).
  { revert s Hn. induction k as [|k IH]; intros s Hn; [done|].
    simpl replicate. simpl run_ops. rewrite IH.
    - by rewrite (dump_positive_size_queue s n Hn Hpos), drop_drop.
    - by destruct (dump_frame s) as (-> & _). }
  split; [done|]. intros Hlen. rewrite Hq. by apply drop_ge.
Qed.


(** X10. After [stopInterval], on an instance whose only timer is the one
    it holds, no timer is armed, and however many times and for whatever
    handle the host's timers tick, nothing happens to the cache: no dump,
    no notification. *)
Theorem stopInterval_silences s (hs : list nat) :
  one_timer s →
  timers (stopInterval s).2 = ∅ ∧
  run_ops (TimerFires <$> hs) (stopInterval s).2 = (stopInterval s).2.
Proof.
  intros Hone. pose proof (stopInterval_empties s Hone) as Hempty.
  split; [done|].
  induction hs as [|h hs IH]; [done|].
  simpl. rewrite timer_fires_state, Hempty, lookup_empty. exact IH.
Qed.


(** X12. A cache without a size limit collects until its timer fires:
    pushing items one at a time returns each time and notifies nothing,
    whatever the listeners are, and the next firing of an armed timer
    notifies one batch, the whole queue in the order pushed, and leaves
    the queue empty. *)
Theorem interval_only_collects s items h ms :
  size_limit (opts s) = None →
  timers s !! h = Some ms →
  queue s ++ items ≠ [] →
  let s1 := (push_each items s).2 in
  push_each items s = (Return tt, set_queue (queue s ++ items) s) ∧
  emitted (trace (timer_fires h s1).2)
    = emitted (trace s) ++ [queue s ++ items] ∧
  queue (timer_fires h s1).2 = [].
Proof.
  intros Hno Hh Hne s1. unfold s1.
  rewrite (push_each_no_limit items s Hno). simpl.
  split; [done|].
  set (s2 := set_queue (queue s ++ items) s).
  rewrite timer_fires_state. change (timers s2) with (timers s). rewrite Hh.
  assert (Hq : queue s2 ≠ []) by done.
  destruct (dump_nonempty_facts s2 Hq) as (Hrest & _ & calls & Htr & Hcalls & _).
  change (opts s2) with (opts s) in Hrest, Htr, Hcalls.
  rewrite Hno in Hrest, Htr, Hcalls. simpl in Hrest, Htr, Hcalls.
  rewrite firstn_all in Htr. rewrite drop_all in Hrest.
  split; [|done].
  rewrite Htr, emitted_app. simpl. by rewrite (emitted_calls _ _ _ Hcalls).
Qed.


End Further.

(** ** These properties at instances *)

Lemma run_ops_one_timer_witness :
  let o := Opts.mk (Some 10%Z) (Some 10%Z) in
  let ops := [SetInterval 20; Push [1; 2]; StartInterval; StopInterval;
              SetInterval 5; TimerFires 3] in
  new o = Return (instance o) ∧ one_timer (run_ops ops (instance o)).
Proof.
  intros o ops.
  assert (H : new o = Return (instance o)) by reflexivity.
  split; [exact H|].
  exact (proj1 (run_ops_one_timer o (instance o) ops H)).
Defined.

Lemma push_below_limit_witness :
  let items := [1; 2; 3] in
  (∀ n, size_limit (opts cache10) = Some n →
        (Z.of_nat (List.length (queue cache10 ++ items)) < n)%Z) ∧
  push items cache10 = (Return 3%Z, set_queue items cache10).
Proof.
  intros items.
  assert (H : ∀ n, size_limit (opts cache10) = Some n →
                   (Z.of_nat (List.length (queue cache10 ++ items)) < n)%Z).
  { intros n Hn. vm_compute in Hn. injection Hn as <-. simpl. lia. }
  split; [exact H|]. exact (push_below_limit cache10 items H).
Defined.

(** Twenty-five items pushed in one call under [size: 10]: ten are dumped,
    fifteen stay. *)
Lemma push_over_limit_one_batch_witness :
  Opts.size (opts cache10) = Some 10%Z ∧ (0 < 10)%Z ∧
  (10 ≤ Z.of_nat (List.length (queue cache10 ++ seq 0 25)))%Z ∧
  queue (push (seq 0 25) cache10).2 = seq 10 15.
Proof.
  assert (H1 : Opts.size (opts cache10) = Some 10%Z) by reflexivity.
  assert (H2 : (0 < 10)%Z) by lia.
  assert (H3 : (10 ≤ Z.of_nat (List.length (queue cache10 ++ seq 0 25)))%Z)
    by (simpl; lia).
  split; [exact H1|]. split; [exact H2|]. split; [exact H3|].
  exact (proj1 (push_over_limit_one_batch cache10 (seq 0 25) 10 H1 H2 H3)).
Defined.

Lemma push_each_batches_witness :
  let s := after (on returns) cache10 in
  Opts.size (opts s) = Some 10%Z ∧ (0 < 10)%Z ∧
  (Z.of_nat (List.length (queue s)) < 10)%Z ∧ Forall quiet (listeners s) ∧
  (push_each (seq 0 25) s).1 = Return tt.
Proof.
  intros s.
  assert (H1 : Opts.size (opts s) = Some 10%Z) by reflexivity.
  assert (H2 : (0 < 10)%Z) by lia.
  assert (H3 : (Z.of_nat (List.length (queue s)) < 10)%Z) by (simpl; lia).
  assert (H4 : Forall quiet (listeners s)).
  { repeat constructor. }
  split; [exact H1|]. split; [exact H2|]. split; [exact H3|]. split; [exact H4|].
  exact (proj1 (push_each_batches 10 (seq 0 25) s H1 H2 H3 H4)).
Defined.

Lemma dump_negative_size_witness :
  let s := set_size (Some (-1)%Z) (after (push [1; 2]) cache10) in
  Opts.size (opts s) = Some (-1)%Z ∧ (-1 < 0)%Z ∧ queue s ≠ [] ∧
  queue (dump s).2 = [1; 2].
Proof.
  intros s.
  assert (H1 : Opts.size (opts s) = Some (-1)%Z) by reflexivity.
  assert (H2 : (-1 < 0)%Z) by lia.
  assert (H3 : queue s ≠ []) by discriminate.
  split; [exact H1|]. split; [exact H2|]. split; [exact H3|].
  exact (proj1 (dump_negative_size s (-1) H1 H2 H3)).
Defined.

Lemma setSize_without_dump_witness :
  let s := after (push [1; 2]) cache10 in
  (3 = 0 ∨ Z.of_nat (List.length (queue s)) < 3)%Z ∧
  setSize 3 s = (Return tt, set_size (Some 3%Z) s).
Proof.
  intros s.
  assert (H : (3 = 0 ∨ Z.of_nat (List.length (queue s)) < 3)%Z)
    by (right; simpl; lia).
  split; [exact H|]. exact (setSize_without_dump s 3 H).
Defined.

(** Fifteen items left by the push above: two more dumps empty the queue. *)
Lemma dumps_drain_witness :
  let s := after (push (seq 0 25)) cache10 in
  Opts.size (opts s) = Some 10%Z ∧ (0 < 10)%Z ∧
  queue (run_ops [Dump; Dump] s) = drop 20 (queue s).
Proof.
  intros s.
  assert (H1 : Opts.size (opts s) = Some 10%Z) by reflexivity.
  assert (H2 : (0 < 10)%Z) by lia.
  split; [exact H1|]. split; [exact H2|].
  exact (proj1 (dumps_drain s 10 2 H1 H2)).
Defined.


Lemma stopInterval_silences_witness :
  one_timer ticking ∧ timers (stopInterval ticking).2 = ∅.
Proof.
  assert (H : one_timer ticking)
    by (apply (new_one_timer (Opts.mk None (Some 10%Z))); reflexivity).
  split; [exact H|].
  exact (proj1 (stopInterval_silences ticking [0; 1; 0] H)).
Defined.


Lemma interval_only_collects_witness :
  size_limit (opts ticking) = None ∧ timers ticking !! 0 = Some 10%Z ∧
  queue ticking ++ seq 0 10 ≠ [] ∧
  push_each (seq 0 10) ticking = (Return tt, set_queue (seq 0 10) ticking).
Proof.
  assert (H1 : size_limit (opts ticking) = None) by reflexivity.
  assert (H2 : timers ticking !! 0 = Some 10%Z) by reflexivity.
  assert (H3 : queue ticking ++ seq 0 10 ≠ []) by discriminate.
  split; [exact H1|]. split; [exact H2|]. split; [exact H3|].
  exact (proj1 (interval_only_collects ticking (seq 0 10) 0 10 H1 H2 H3)).
Defined.


End PythagoreanCache.
